(** * cliffy-github-upgrade: the GitHub version provider and the upgrade command

    A shallow embedding of [src/lib/github_provider.ts] and
    [src/lib/github_upgrade_command.ts].

    - JavaScript values of type [string | undefined] are [option string];
      [undefined] is [None].
    - A settled promise is a [completion]: a value or a thrown exception.
      Methods that also write to the console run in [io], which pairs the
      console events with the completion.
    - The colour helpers imported from [../deps.ts], the [href] of the global
      [URL] constructor and the answers of the two GET requests are the
      fields of [env]. *)

From stdpp Require Import base option list strings pretty gmap.

(** ** JavaScript values *)

(** [ToBoolean] on a string: only the empty string is falsy. *)
Definition truthy_str (s : string) : bool := negb (bool_decide (s = "")).

(** [ToBoolean] on [string | undefined]. *)
Definition truthy (v : option string) : bool :=
  match v with
  | Some s => truthy_str s
  | None => false
  end.

(** [`${v}`]: a template literal prints [undefined] by its name. *)
Definition template (v : option string) : string := default "undefined" v.

(** [" ".repeat(n)] *)
Fixpoint repeat_str (s : string) (n : nat) : string :=
  match n with
  | O => ""
  | S n' => s +:+ repeat_str s n'
  end.

(** [lines.join(sep)] *)
Fixpoint join (sep : string) (l : list string) : string :=
  match l with
  | [] => ""
  | [x] => x
  | x :: l' => x +:+ sep +:+ join sep l'
  end.

(** [s.replace(/^p/, "")] for a literal [p]: [drop_prefix] is the match of the
    anchored pattern, [replace_prefix] leaves a string without the prefix
    untouched. *)
Fixpoint drop_prefix (p s : string) : option string :=
  match p with
  | EmptyString => Some s
  | String a p' =>
      match s with
      | EmptyString => None
      | String b s' => if Ascii.eqb a b then drop_prefix p' s' else None
      end
  end.

Definition replace_prefix (p s : string) : string := default s (drop_prefix p s).

(** The line feed of ["\n"]. *)
Definition nl : string := String (Ascii.ascii_of_nat 10) "".

(** [Math.ceil(n / m)] on array lengths and a positive column count.  With
    [m = 0] JavaScript has [Infinity]; [printVersions] then runs no column
    at all, and its row count is never looked at. *)
Definition ceil_div (n m : nat) : nat :=
  n / m + (if decide (n `mod` m = 0) then 0 else 1).

(** [a.includes(v)] on an array of strings: [undefined] is not among them. *)
Definition includes (a : list string) (v : option string) : bool :=
  match v with
  | Some s => bool_decide (s ∈ a)
  | None => false
  end.

(** [Array.prototype.sort(cmp)] is a stable sort; [cmp] returns a number of
    which only the sign is used.  A stable sort has one result only, the one
    insertion from the right computes. *)
Section Sort.
Context {A : Type} (cmp : A → A → Z).

Fixpoint insert_by (x : A) (l : list A) : list A :=
  match l with
  | [] => [x]
  | y :: l' => if (0 <? cmp x y)%Z then y :: insert_by x l' else x :: l
  end.

Definition sort (l : list A) : list A := foldr insert_by [] l.
End Sort.

(** ** Exceptions, promises and the console *)

Inductive exn : Type :=
  | Error (message : string)            (* [new Error(message)] *)
  | ValidationError (message : string)  (* [new ValidationError(message)] *)
  | TypeError.                          (* raised by the runtime itself *)

Inductive completion (A : Type) : Type :=
  | Return (a : A)
  | Throw (e : exn).
Arguments Return {A} a.
Arguments Throw {A} e.

#[global] Instance completion_ret : MRet completion := @Return.
#[global] Instance completion_bind : MBind completion := λ A B f m,
  match m with
  | Return a => f a
  | Throw e => Throw e
  end.

(** A JavaScript array whose slots may hold [undefined]. *)
Abbreviation js_array A := (list (option A)).

(** [a[i]] *)
Definition js_get {A} (a : js_array A) (i : nat) : option A := mjoin (a !! i).

(** [a[i] = v]: writes in place, appends at [length], and past the end first
    fills the gap with empty slots. *)
Definition js_set {A} (a : js_array A) (i : nat) (v : option A) : js_array A :=
  if decide (i < length a) then <[i := v]> a
  else (a ++ replicate (i - length a) None ++ [v])%list.

(** The [Table] of the command framework, as far as [printVersions] builds
    it: an array of rows, each an array of cells. *)
Abbreviation Table := (js_array (js_array string)).

Inductive console_event : Type :=
  | ConsoleLog (text : string)
  | ConsoleLogTable (indent : nat) (table : Table)  (* [console.log(table.toString())] *)
  | ConsoleWarn (text : string)
  | ConsoleInfo (text : string).

Definition io (A : Type) : Type := list console_event * completion A.

#[global] Instance io_ret : MRet io := λ A a, ([], Return a).
#[global] Instance io_bind : MBind io := λ A B f m,
  match m with
  | (out, Return a) => let '(out', r) := f a in ((out ++ out')%list, r)
  | (out, Throw e) => (out, Throw e)
  end.

Definition await {A} (c : completion A) : io A := ([], c).
Definition throw {A} (e : exn) : io A := ([], Throw e).
Definition console (ev : console_event) : io unit := ([ev], Return tt).

(** ** The data of the GitHub API *)

Module TagRef.
Record t : Type := mk { ref : string }.
End TagRef.

Module Branch.
Record t : Type := mk { name : string; protected : bool }.
End Branch.

#[global] Instance TagRef_eq_dec : EqDecision TagRef.t.
Proof. solve_decision. Defined.

#[global] Instance Branch_eq_dec : EqDecision Branch.t.
Proof. solve_decision. Defined.

(** A decoded JSON body as [gitFetch] looks at it: the array the endpoint is
    typed to return, an object with string fields (the error payload
    [GithubResponse] is one), [null], or a string, number or boolean. *)
Inductive body (T : Type) : Type :=
  | Arr (items : list T)
  | Obj (fields : gmap string string)
  | Null
  | Scalar.
Arguments Arr {T} items.
Arguments Obj {T} fields.
Arguments Null {T}.
Arguments Scalar {T}.

Record response (T : Type) : Type := mkResponse { status : nat; json : body T }.
Arguments mkResponse {T} status json.
Arguments status {T} r.
Arguments json {T} r.

Inductive endpoint : Type := GitRefsTags | Branches.

(** ** The environment *)

Record env : Type := mkEnv {
  (* colour helpers of [../deps.ts] *)
  bold : string → string;
  brightBlue : string → string;
  cyan : string → string;
  green : string → string;
  red : string → string;
  yellow : string → string;
  (* [new URL(relative, base).href] *)
  url_href : string → string → string;
  (* what [fetch] answers to the two requests of [getVersions] *)
  tags_response : response TagRef.t;
  branches_response : response Branch.t;
  (* which request settles first: [Promise.all] rejects with the reason of
     the first rejection *)
  settles_first : endpoint
}.

(** ** [github_provider.ts] *)

Record GithubVersions : Type := mkVersions {
  versions : list string;
  latest : option string;
  tags : list string;
  branches : list string
}.

Record UpgradeOptions : Type := mkUpgrade {
  name : string;
  from : option string;
  to : string
}.

Record GithubProvider : Type := mkProvider {
  repositoryName : string;
  listBranches : bool;
  githubToken : option string
}.

Definition maxListSize : nat := 25.
Definition maxCols : nat := 8.
Definition repositoryUrl : string := "https://github.com/".
Definition registryUrl : string := "https://raw.githubusercontent.com/".
Definition apiUrl : string := "https://api.github.com/repos/".

Definition fetch_failed : string :=
  "couldn't fetch versions - try again after sometime".

(** [gitFetch], from the response on: the request itself (URL, headers,
    token) is the environment's business. *)
Definition gitFetch {T} (r : response T) : completion (body T) :=
  if decide (status r = 0) then Throw (Error fetch_failed)
  else
    match json r with
    | Null => Throw TypeError                  (* ["message" in null] *)
    | Obj fields =>
        match fields !! "message", fields !! "documentation_url" with
        | Some message, Some documentation_url =>
            Throw (Error (message +:+ " " +:+ documentation_url))
        | _, _ => Return (Obj fields)
        end
    | data => Return data
    end.

(** [Promise.all([p, q])] of two settled promises. *)
Definition promise_all {A B} (first : endpoint)
    (p : completion A) (q : completion B) : completion (A * B) :=
  match p, q with
  | Return a, Return b => Return (a, b)
  | Throw e, Return _ => Throw e
  | Return _, Throw e => Throw e
  | Throw e1, Throw e2 =>
      Throw (match first with GitRefsTags => e1 | Branches => e2 end)
  end.

(** Calling an array method on a body: anything but an array has no such
    method. *)
Definition array_of {T} (data : body T) : completion (list T) :=
  match data with
  | Arr items => Return items
  | _ => Throw TypeError
  end.

(** The comparator of [branches.sort]. *)
Definition compare_protected (a b : Branch.t) : Z :=
  if bool_decide (Branch.protected a = Branch.protected b) then 0%Z
  else if Branch.protected a then 1%Z else (-1)%Z.

Section Provider.
Context (E : env) (self : GithubProvider).

(** The callback of [branches.map]; the source calls its argument [tag]. *)
Definition branch_label (tag : Branch.t) : string :=
  Branch.name tag +:+ " " +:+
  (if Branch.protected tag then "(" +:+ bold E "Protected" +:+ ")" else "").

Definition getVersions (_name : string) : completion GithubVersions :=
  '(tags, branches) ← promise_all (settles_first E)
      (gitFetch (tags_response E)) (gitFetch (branches_response E));
  tags ← array_of tags;
  let tagNames :=
    reverse ((λ tag, replace_prefix "refs/tags/" (TagRef.ref tag)) <$> tags) in
  branches ← array_of branches;
  let branchNames :=
    reverse (branch_label <$> sort compare_protected branches) in
  mret {| versions := (tagNames ++ branchNames)%list;
          latest := head tagNames;
          tags := tagNames;
          branches := branchNames |}.

Definition getRepositoryUrl (_name : string) : string :=
  url_href E (repositoryName self +:+ "/") repositoryUrl.

Definition getRegistryUrl (_name : string) (version : option string) : string :=
  url_href E (repositoryName self +:+ "/" +:+ template version +:+ "/") registryUrl.

Definition getApiUrl (endpoint : string) : string :=
  url_href E (repositoryName self +:+ "/" +:+ endpoint) apiUrl.

(** The callback of [versions.map] in [printVersions]. *)
Definition mark (currentVersion : option string) (version : string) : string :=
  if truthy currentVersion && bool_decide (currentVersion = Some version)
  then green E ("* " +:+ version)
  else "  " +:+ version.

(** The body of the inner loop of [printVersions]; the state is the table
    and [versionIndex]. The first [match] is [if (!table[rowIndex])
    table[rowIndex] = []], the second the assignment to
    [table[rowIndex][colIndex]], whose row the first has made sure of. Past
    the last entry [versions[versionIndex]] is [undefined], and that is what
    the cell is given. *)
Definition fill_cell (versions : list string) (colIndex : nat)
    (st : Table * nat) (rowIndex : nat) : Table * nat :=
  let '(table, versionIndex) := st in
  let table :=
    match js_get table rowIndex with
    | None => js_set table rowIndex (Some [])
    | Some _ => table
    end in
  let table :=
    match js_get table rowIndex with
    | Some row =>
        js_set table rowIndex (Some (js_set row colIndex (versions !! versionIndex)))
    | None => table
    end in
  (table, S versionIndex).

Definition fill_column (versions : list string) (rowSize : nat)
    (st : Table * nat) (colIndex : nat) : Table * nat :=
  foldl (fill_cell versions colIndex) st (seq 0 rowSize).

(** The two nested [for] loops of [printVersions]. *)
Definition fill_table (versions : list string) (rowSize colSize : nat) : Table :=
  (foldl (fill_column versions rowSize) ([], 0) (seq 0 colSize)).1.

(** [printVersions(versions, currentVersion, { maxCols, indent })]; [cols]
    is the optional [maxCols] of the call, [this.maxCols] when left out. *)
Definition printVersions (versions : list string) (currentVersion : option string)
    (cols : option nat) (indent : nat) : io unit :=
  let maxCols := default maxCols cols in
  if decide (length versions = 0) then mret tt
  else
    let versions := mark currentVersion <$> versions in
    if decide (maxListSize < length versions) then
      let rowSize := ceil_div (length versions) maxCols in
      let colSize := length versions `min` maxCols in
      console (ConsoleLogTable indent (fill_table versions rowSize colSize))
    else
      console (ConsoleLog
        (join nl ((λ version, repeat_str " " indent +:+ version) <$> versions))).

Definition listVersions (name : string) (currentVersion : option string) : io unit :=
  vs ← await (getVersions name);
  let showBranches := listBranches self && bool_decide (0 < length (branches vs)) in
  let indent := if showBranches then 2 else 0 in
  _ ← (if showBranches
       then console (ConsoleLog
              (nl +:+ repeat_str " " indent +:+ bold E (brightBlue E ("Tags:" +:+ nl))))
       else mret tt);
  _ ← printVersions (tags vs) currentVersion None indent;
  if showBranches then
    _ ← console (ConsoleLog
           (nl +:+ repeat_str " " indent +:+ bold E (brightBlue E ("Branches:" +:+ nl))));
    _ ← printVersions (branches vs) currentVersion (Some 5) indent;
    console (ConsoleLog "")
  else mret tt.

(** The message of the [ValidationError] of [isOutdated]. *)
Definition not_found (name : string) (targetVersion : option string) : string :=
  "The provided version " +:+ bold E (red E (template targetVersion)) +:+
  " is not found." +:+ nl +:+ nl +:+ "    " +:+
  cyan E ("Visit " +:+ brightBlue E (getRepositoryUrl name) +:+
          " for available releases or run again with the " +:+ yellow E "-l" +:+
          " or " +:+ yellow E "--list-versions" +:+ " command.").

Definition isOutdated (name currentVersion targetVersion : string) : io bool :=
  vs ← await (getVersions name);
  let latest := latest vs in
  let versions := versions vs in
  let targetVersion : option string :=
    if bool_decide (targetVersion = "latest") then latest else Some targetVersion in
  (* Check if requested version exists. *)
  if truthy targetVersion && negb (includes versions targetVersion) then
    throw (ValidationError (not_found name targetVersion))
  (* Check if requested version is already the latest available version. *)
  else if truthy latest && bool_decide (latest = Some currentVersion)
          && bool_decide (latest = targetVersion) then
    _ ← console (ConsoleWarn (yellow E
           ("You're already using the latest available version " +:+
            currentVersion +:+ " of " +:+ name +:+ ".")));
    mret false
  (* Check if requested version is already installed. *)
  else if truthy targetVersion && bool_decide (Some currentVersion = targetVersion) then
    _ ← console (ConsoleWarn (yellow E
           ("You're already using version " +:+ currentVersion +:+ " of " +:+
            name +:+ ".")));
    mret false
  else mret true.

Definition upgrade (o : UpgradeOptions) : io unit :=
  to ← (if bool_decide (to o = "latest")
        then vs ← await (getVersions (name o)); mret (latest vs)
        else mret (Some (to o)));
  console (ConsoleInfo
    ("Successfully upgraded " +:+ name o +:+ " from " +:+ template (from o) +:+
     " to version " +:+ template to +:+ "! (" +:+
     getRegistryUrl (name o) to +:+ ")")).

End Provider.

(** ** [github_upgrade_command.ts] *)

(** The methods of the provider the command's action calls. *)
Inductive providerE : Type → Type :=
  | IsOutdated (name currentVersion targetVersion : string) : providerE bool
  | Upgrade (o : UpgradeOptions) : providerE unit.

(** A finite program over the provider: the action, with every call to the
    provider left open. *)
Inductive prog (R : Type) : Type :=
  | Done (r : R)
  | Call {X : Type} (e : providerE X) (k : X → prog R).
Arguments Done {R} r.
Arguments Call {R X} e k.

(** The [.action(async ({ version: targetVersion, force }) => ...)] callback.
    [name] is [this.getMainCommand().getName()], [currentVersion] is
    [this.getVersion()]; an unset [force] is [false]. *)
Definition action (name : string) (currentVersion : option string)
    (targetVersion : string) (force : bool) : prog unit :=
  let upgrade :=
    Call (Upgrade {| name := name; from := currentVersion; to := targetVersion |}) Done in
  match currentVersion with
  | Some current =>
      if force || negb (truthy currentVersion) then upgrade
      else Call (IsOutdated name current targetVersion)
             (λ outdated : bool, if outdated then upgrade else Done tt)
  | None => upgrade
  end.

(** The calls a run makes, in order. *)
Inductive call : Type :=
  | CallIsOutdated (name currentVersion targetVersion : string)
  | CallUpgrade (o : UpgradeOptions).

Definition call_of {X} (e : providerE X) : call :=
  match e with
  | IsOutdated n c t => CallIsOutdated n c t
  | Upgrade o => CallUpgrade o
  end.

(** Running a program against a provider [h]: a call that throws ends the
    run, nothing catches it. *)
Fixpoint run {R} (h : ∀ X, providerE X → io X) (p : prog R) : list call * io R :=
  match p with
  | Done r => ([], mret r)
  | Call e k =>
      match h _ e with
      | (out, Return x) =>
          let '(calls, (out', r)) := run h (k x) in
          (call_of e :: calls, ((out ++ out')%list, r))
      | (out, Throw ex) => ([call_of e], (out, Throw ex))
      end
  end.

(** The provider the command is built with. *)
Definition github (E : env) (self : GithubProvider) : ∀ X, providerE X → io X :=
  λ X e,
    match e with
    | IsOutdated n c t => isOutdated E self n c t
    | Upgrade o => upgrade E self o
    end.

(** [GithubProviderOptions] and the constructor of [GithubProvider]: a
    [branches] option left out is [true]. *)
Module Options.
Record t : Type := mk {
  repository : string;
  branches : option bool;
  token : option string
}.
End Options.

Definition GithubProvider_new (options : Options.t) : GithubProvider :=
  {| repositoryName := Options.repository options;
     listBranches := default true (Options.branches options);
     githubToken := Options.token options |}.

(** How a callback that may call [Deno.exit] ends: the process exits with a
    code, or an exception leaves the callback. *)
Inductive ending : Type :=
  | Exited (code : Z)
  | Escaped (e : exn).

(** The action of the [-l, --list-versions] option: [listVersions], then
    [Deno.exit(0)]. [name] is the main command's name, [currentVersion] is
    [this.getVersion()]. *)
Definition list_versions_action (E : env) (self : GithubProvider) (name : string)
    (currentVersion : option string) : list console_event * ending :=
  match listVersions E self name currentVersion with
  | (out, Return _) => (out, Exited 0)
  | (out, Throw e) => (out, Escaped e)
  end.

(** [getAllVersions], the completion of the [version] option: the command's
    own [getVersions] hands [name], the main command's name, to the
    provider. *)
Definition getAllVersions (E : env) (name : string) : completion (list string) :=
  vs ← getVersions E name;
  mret (versions vs).

(** ** Concrete environments *)

(** Colours switched off ([NO_COLOR]): every helper returns its argument.
    [URL] joins a relative path to a base that ends in a slash. *)
Definition plain (tags : response TagRef.t) (branches : response Branch.t) : env :=
  {| bold := id; brightBlue := id; cyan := id; green := id; red := id; yellow := id;
     url_href := λ relative base, base +:+ relative;
     tags_response := tags;
     branches_response := branches;
     settles_first := GitRefsTags |}.

(** A [200] with an array for a body. *)
Definition ok {T} (items : list T) : response T := mkResponse 200 (Arr items).

Definition repo : GithubProvider :=
  {| repositoryName := "owner/repo"; listBranches := true; githubToken := None |}.

(** The reference the API lists for the tag [name]. *)
Definition tag (name : string) : TagRef.t := TagRef.mk ("refs/tags/" +:+ name).

Definition demo : env :=
  plain (ok [tag "v1.0"; tag "v1.1"; tag "v2.0"])
        (ok [Branch.mk "main" true; Branch.mk "dev" false]).

(** ** Definitions the statements use *)

(** What the spec calls stripping the reference prefix: [name] is [ref]
    without its leading [prefix], or [ref] itself when it has no such
    prefix. *)
Definition stripped_of (prefix ref name : string) : Prop :=
  ref = prefix +:+ name ∨ (name = ref ∧ ∀ rest, ref ≠ prefix +:+ rest).

(** The request got a status and an array for a body. *)
Definition answered {T} (r : response T) (items : list T) : Prop :=
  status r ≠ 0 ∧ json r = Arr items.

(** The [tagNames] and [branchNames] of [getVersions], by name. *)
Definition tagNames_of (refs : list TagRef.t) : list string :=
  reverse ((λ tag, replace_prefix "refs/tags/" (TagRef.ref tag)) <$> refs).

Definition branchNames_of (E : env) (bs : list Branch.t) : list string :=
  reverse (branch_label E <$> sort compare_protected bs).

(** The target after ["latest"] has been resolved. *)
Definition resolved (vs : GithubVersions) (targetVersion : string) : option string :=
  if bool_decide (targetVersion = "latest") then latest vs else Some targetVersion.

(** Two error payloads: one as the API sends it, one whose fields spell the
    text of the transport failure. *)
Definition rate_limited : gmap string string :=
  {[ "message" := "API rate limit exceeded";
     "documentation_url" := "https://docs.github.com/rest" ]}.

Definition looks_like_fetch_failure : gmap string string :=
  {[ "message" := "couldn't fetch versions - try again after";
     "documentation_url" := "sometime" ]}.

(** Whether a string holds a space; git allows none in a reference name. *)
Definition space : Ascii.ascii := Ascii.ascii_of_nat 32.

Fixpoint has_space (s : string) : bool :=
  match s with
  | EmptyString => false
  | String a s' => Ascii.eqb a space || has_space s'
  end.

(** A repository with one tag and an unprotected branch named "latest". *)
Definition branch_named_latest : env :=
  plain (ok [tag "v1.0"]) (ok [Branch.mk "latest" false]).

(** [table[r][c]] *)
Definition cell (table : Table) (r c : nat) : option string :=
  js_get table r ≫= λ row, js_get row c.

(** The first [n] cells of row [r] of a column-major layout with [rowSize]
    rows: cell [c] holds entry [c * rowSize + r], or nothing when the
    entries have run out. *)
Definition cells (entries : list string) (rowSize r n : nat) : js_array string :=
  (λ c, entries !! (c * rowSize + r)) <$> seq 0 n.

(** What the spec calls the column-major grid of [rowSize] rows and
    [colSize] columns. *)
Definition column_major_grid (entries : list string) (rowSize colSize : nat) : Table :=
  (λ r, Some (cells entries rowSize r colSize)) <$> seq 0 rowSize.

(** The table while column [k] is being filled, with its first [j] rows
    done. *)
Definition filling (entries : list string) (rowSize k j : nat) : Table :=
  (λ r, Some (cells entries rowSize r (if decide (r < j) then S k else k)))
    <$> seq 0 rowSize.

(** Thirty version names, "v0" to "v29". *)
Definition thirty : list string :=
  (λ i, "v" +:+ pretty i) <$> seq 0 30.

(** The two warnings of [isOutdated]. *)
Definition already_latest (E : env) (name currentVersion : string) : console_event :=
  ConsoleWarn (yellow E
    ("You're already using the latest available version " +:+
     currentVersion +:+ " of " +:+ name +:+ ".")).

Definition already_installed (E : env) (name currentVersion : string) : console_event :=
  ConsoleWarn (yellow E
    ("You're already using version " +:+ currentVersion +:+ " of " +:+
     name +:+ ".")).

(** The one line [upgrade] writes, for the target [to] it ends up with. *)
Definition upgraded (E : env) (self : GithubProvider) (o : UpgradeOptions)
    (to : option string) : console_event :=
  ConsoleInfo
    ("Successfully upgraded " +:+ name o +:+ " from " +:+ template (from o) +:+
     " to version " +:+ template to +:+ "! (" +:+
     getRegistryUrl E self (name o) to +:+ ")").

(** Reading a table column by column, each column from the top. *)
Definition read_column_major (table : Table) (rowSize colSize : nat) :
    list (option string) :=
  (λ k, cell table (k `mod` rowSize) (k / rowSize)) <$> seq 0 (rowSize * colSize).

(** * Properties *)

(** Membership in a concrete list, by evaluation. *)
Ltac by_evaluation := apply (bool_decide_unpack _); vm_compute; exact I.

(** A call that is not in a one-call trace. *)
Ltac not_the_call H := by apply list_elem_of_singleton in H.

(** ** Strings *)

Lemma app_cons (a : Ascii.ascii) (s t : string) :
  String a s +:+ t = String a (s +:+ t).
Proof. reflexivity. Qed.

Lemma app_empty_r (s : string) : s +:+ "" = s.
Proof. induction s as [|a s IH]; [done |]. by rewrite app_cons, IH. Qed.

Lemma drop_prefix_app (p s : string) : drop_prefix p (p +:+ s) = Some s.
Proof.
  induction p as [|a p IH]; [done |].
  rewrite app_cons. simpl. by rewrite Ascii.eqb_refl.
Qed.

Lemma drop_prefix_Some (p s t : string) : drop_prefix p s = Some t → s = p +:+ t.
Proof.
  revert s; induction p as [|a p IH]; intros s; simpl.
  - by intros [= ->].
  - destruct s as [|b s]; [done |].
    destruct (Ascii.eqb a b) eqn:Hab; [| done].
    apply Ascii.eqb_eq in Hab as ->. intros ->%IH. by rewrite app_cons.
Qed.

Lemma replace_prefix_stripped (p s : string) : stripped_of p s (replace_prefix p s).
Proof.
  unfold replace_prefix, stripped_of.
  destruct (drop_prefix p s) as [t|] eqn:Hd; simpl.
  - left. by apply drop_prefix_Some.
  - right. split; [done |]. intros rest ->. by rewrite drop_prefix_app in Hd.
Qed.

(** ** Sorting by protection *)

Lemma insert_unprotected (a : Branch.t) (l : list Branch.t) :
  Branch.protected a = false → insert_by compare_protected a l = a :: l.
Proof.
  intros Ha. destruct l as [|y l]; [done |]. simpl.
  unfold compare_protected. rewrite Ha.
  by case_bool_decide.
Qed.

Lemma insert_protected (a : Branch.t) (us ps : list Branch.t) :
  Branch.protected a = true →
  Forall (λ b, Branch.protected b = false) us →
  Forall (λ b, Branch.protected b = true) ps →
  insert_by compare_protected a (us ++ ps) = us ++ a :: ps.
Proof.
  intros Ha Hus Hps. induction Hus as [|u us Hu _ IH]; simpl.
  - destruct ps as [|p ps]; [done |]. simpl.
    apply Forall_cons in Hps as [Hp _].
    unfold compare_protected. rewrite Ha, Hp. by case_bool_decide.
  - unfold compare_protected at 1. rewrite Ha, Hu.
    case_bool_decide; [done |]. simpl. by rewrite IH.
Qed.

Lemma Forall_filter_self {A} (P : A → Prop) `{!∀ x, Decision (P x)} (l : list A) :
  Forall P (filter P l).
Proof. apply Forall_forall. by intros x [? _]%list_elem_of_filter. Qed.

(** The stable sort on one boolean key is the two filters, one after the
    other. *)
Lemma sort_protected (l : list Branch.t) :
  sort compare_protected l =
    filter (λ b, Branch.protected b = false) l ++
    filter (λ b, Branch.protected b = true) l.
Proof.
  induction l as [|a l IH]; [done |].
  change (sort compare_protected (a :: l))
    with (insert_by compare_protected a (sort compare_protected l)).
  rewrite IH. destruct (Branch.protected a) eqn:Ha.
  - rewrite insert_protected; [| done | by apply Forall_filter_self .. ].
    rewrite (filter_cons_False (λ b, Branch.protected b = false)) by (by rewrite Ha).
    by rewrite (filter_cons_True (λ b, Branch.protected b = true)) by done.
  - rewrite insert_unprotected by done.
    rewrite (filter_cons_True (λ b, Branch.protected b = false)) by done.
    by rewrite (filter_cons_False (λ b, Branch.protected b = true)) by (by rewrite Ha).
Qed.

(** ** [getVersions] on answered requests *)

Lemma gitFetch_answered {T} (r : response T) (items : list T) :
  answered r items → gitFetch r = Return (Arr items).
Proof.
  intros [Hs Hj]. unfold gitFetch. rewrite Hj. by case_decide.
Qed.

Lemma gitFetch_Return_Arr {T} (r : response T) (items : list T) :
  gitFetch r = Return (Arr items) → answered r items.
Proof.
  unfold gitFetch, answered. case_decide; [done |].
  destruct (json r) as [l|f| |]; try done.
  - by intros [= ->].
  - by destruct (f !! "message"), (f !! "documentation_url").
Qed.

Lemma getVersions_answered (E : env) (n : string) refs bs :
  answered (tags_response E) refs →
  answered (branches_response E) bs →
  getVersions E n =
    Return {| versions := tagNames_of refs ++ branchNames_of E bs;
              latest := head (tagNames_of refs);
              tags := tagNames_of refs;
              branches := branchNames_of E bs |}.
Proof.
  intros Ht Hb. unfold getVersions.
  by rewrite (gitFetch_answered _ _ Ht), (gitFetch_answered _ _ Hb).
Qed.

Lemma getVersions_Return (E : env) (n : string) (vs : GithubVersions) :
  getVersions E n = Return vs →
  ∃ refs bs,
    answered (tags_response E) refs ∧ answered (branches_response E) bs ∧
    vs = {| versions := tagNames_of refs ++ branchNames_of E bs;
            latest := head (tagNames_of refs);
            tags := tagNames_of refs;
            branches := branchNames_of E bs |}.
Proof.
  unfold getVersions.
  destruct (gitFetch (tags_response E)) as [dt|] eqn:Ht;
    destruct (gitFetch (branches_response E)) as [db|] eqn:Hb; simpl; try done.
  destruct dt as [refs| | |]; simpl; try done.
  destruct db as [bs| | |]; simpl; try done.
  intros [= <-]. exists refs, bs.
  by split_and!; [apply gitFetch_Return_Arr .. |].
Qed.

Lemma getVersions_not_validation (E : env) (n msg : string) :
  getVersions E n ≠ Throw (ValidationError msg).
Proof.
  unfold getVersions, gitFetch.
  destruct (tags_response E) as [st jt], (branches_response E) as [sb jb]; simpl.
  destruct (settles_first E);
    repeat (case_decide || case_match || simpl || done).
Qed.

(** ** Tags *)

(** C4. When both requests are answered, [getVersions] returns a version set
    whose [tags] are as many as the tag references of the response and are,
    read against the response in reverse order, each reference with its
    leading "refs/tags/" stripped. *)
Theorem getVersions_tags_reversed_stripped (E : env) (n : string)
    (refs : list TagRef.t) (bs : list Branch.t) :
  answered (tags_response E) refs →
  answered (branches_response E) bs →
  ∃ vs, getVersions E n = Return vs ∧
    length (tags vs) = length refs ∧
    Forall2 (λ tag name, stripped_of "refs/tags/" (TagRef.ref tag) name)
      (reverse refs) (tags vs).
Proof.
  intros Ht Hb. eexists. split; [by apply getVersions_answered |]. simpl.
  unfold tagNames_of. split.
  - by rewrite length_reverse, length_fmap.
  - rewrite <- fmap_reverse. apply Forall2_fmap_r, Forall_Forall2_diag.
    apply Forall_forall. intros tag _. apply replace_prefix_stripped.
Qed.

Lemma getVersions_tags_reversed_stripped_witness :
  ∃ vs, getVersions demo "cli" = Return vs ∧
    length (tags vs) = 3 ∧
    Forall2 (λ tag name, stripped_of "refs/tags/" (TagRef.ref tag) name)
      [tag "v2.0"; tag "v1.1"; tag "v1.0"] (tags vs).
Proof.
  apply (getVersions_tags_reversed_stripped demo "cli"
           [tag "v1.0"; tag "v1.1"; tag "v2.0"]
           [Branch.mk "main" true; Branch.mk "dev" false]);
    (split; [discriminate | reflexivity]).
Defined.

(** ** Branches *)

(** C3, as the code has it. The branches come out as the unprotected ones in
    API order followed by the protected ones in API order, each turned into
    its label, the whole reversed. The label of an unprotected branch is its
    name and a space; the label of a protected one is its name, a space and
    the bold "Protected" in parentheses. For "main" (protected) and "dev"
    the list is "main (" + bold("Protected") + ")" and "dev ". *)
Theorem getVersions_branches_sorted_labelled (E : env) (n : string)
    (refs : list TagRef.t) (bs : list Branch.t) :
  answered (tags_response E) refs →
  answered (branches_response E) bs →
  ∃ vs, getVersions E n = Return vs ∧
    branches vs =
      reverse
        (((λ b, Branch.name b +:+ " ") <$>
            filter (λ b, Branch.protected b = false) bs) ++
         ((λ b, Branch.name b +:+ " " +:+ "(" +:+ bold E "Protected" +:+ ")") <$>
            filter (λ b, Branch.protected b = true) bs)) ∧
    (bs = [Branch.mk "main" true; Branch.mk "dev" false] →
     branches vs = ["main " +:+ "(" +:+ bold E "Protected" +:+ ")"; "dev "]).
Proof.
  intros Ht Hb. eexists. split; [by apply getVersions_answered |]. simpl.
  assert (branchNames_of E bs =
    reverse
      (((λ b, Branch.name b +:+ " ") <$>
          filter (λ b, Branch.protected b = false) bs) ++
       ((λ b, Branch.name b +:+ " " +:+ "(" +:+ bold E "Protected" +:+ ")") <$>
          filter (λ b, Branch.protected b = true) bs))) as Heq.
  { unfold branchNames_of. rewrite sort_protected, fmap_app. do 2 f_equal.
    - apply Forall_fmap_ext_1, Forall_forall.
      intros b [Hb' _]%list_elem_of_filter.
      unfold branch_label. by rewrite Hb', app_empty_r.
    - apply Forall_fmap_ext_1, Forall_forall.
      intros b [Hb' _]%list_elem_of_filter.
      unfold branch_label. by rewrite Hb'. }
  split; [done |]. intros ->. by rewrite Heq.
Qed.

Lemma getVersions_branches_sorted_labelled_witness :
  ∃ vs, getVersions demo "cli" = Return vs ∧
    branches vs = ["main (Protected)"; "dev "].
Proof.
  destruct (getVersions_branches_sorted_labelled demo "cli"
              [tag "v1.0"; tag "v1.1"; tag "v2.0"]
              [Branch.mk "main" true; Branch.mk "dev" false])
    as (vs & Hvs & _ & Hdemo).
  - split; [discriminate | reflexivity].
  - split; [discriminate | reflexivity].
  - exists vs. split; [exact Hvs | exact (Hdemo eq_refl)].
Defined.

(** C3 as the spec states it fails on its own example: with colours switched
    off the entry of the unprotected branch is "dev " with the separating
    space, not "dev". *)
Lemma getVersions_branches_example_differs :
  ∃ vs, getVersions demo "cli" = Return vs ∧
    branches vs = ["main (Protected)"; "dev "] ∧
    branches vs ≠ ["main (Protected)"; "dev"].
Proof. eexists. split; [reflexivity |]. by split. Qed.

(** ** The version set *)

(** C6. When both requests are answered, the returned set has [versions]
    equal to [tags] followed by [branches] with nothing removed (an entry
    occurs in [versions] as often as in [tags] and [branches] together), and
    [latest] is the first of [tags], with no value when there is no tag. *)
Theorem getVersions_versions_latest (E : env) (n : string)
    (refs : list TagRef.t) (bs : list Branch.t) :
  answered (tags_response E) refs →
  answered (branches_response E) bs →
  ∃ vs, getVersions E n = Return vs ∧
    versions vs = tags vs ++ branches vs ∧
    (∀ x, length (filter (λ y, y = x) (versions vs)) =
          length (filter (λ y, y = x) (tags vs)) +
          length (filter (λ y, y = x) (branches vs))) ∧
    latest vs = tags vs !! 0 ∧
    (refs = [] → latest vs = None ∧ truthy (latest vs) = false).
Proof.
  intros Ht Hb. eexists. split; [by apply getVersions_answered |]. simpl.
  split_and!.
  - done.
  - intros x. by rewrite filter_app, length_app.
  - by destruct (tagNames_of refs).
  - by intros ->.
Qed.

Lemma getVersions_versions_latest_witness :
  ∃ vs, getVersions (plain (ok [tag "dev "]) (ok [Branch.mk "dev" false])) "cli"
          = Return vs ∧
    versions vs = ["dev "; "dev "] ∧ latest vs = Some "dev ".
Proof.
  destruct (getVersions_versions_latest
              (plain (ok [tag "dev "]) (ok [Branch.mk "dev" false])) "cli"
              [tag "dev "] [Branch.mk "dev" false])
    as (vs & Hvs & Hv & _ & Hl & _).
  - split; [discriminate | reflexivity].
  - split; [discriminate | reflexivity].
  - exists vs. split; [exact Hvs |].
    rewrite Hv, Hl. vm_compute in Hvs. by injection Hvs as <-.
Defined.

(** ** [isOutdated] *)

Lemma isOutdated_Throw (E : env) (self : GithubProvider) (n c t : string) (e : exn) :
  getVersions E n = Throw e → isOutdated E self n c t = ([], Throw e).
Proof. intros H. unfold isOutdated. by rewrite H. Qed.

Lemma isOutdated_Return (E : env) (self : GithubProvider) (n c t : string)
    (vs : GithubVersions) :
  getVersions E n = Return vs →
  (isOutdated E self n c t).2 =
    if truthy (resolved vs t) && negb (includes (versions vs) (resolved vs t))
    then Throw (ValidationError (not_found E self n (resolved vs t)))
    else if truthy (latest vs) && bool_decide (latest vs = Some c)
            && bool_decide (latest vs = resolved vs t)
    then Return false
    else if truthy (resolved vs t) && bool_decide (Some c = resolved vs t)
    then Return false
    else Return true.
Proof.
  intros H. unfold isOutdated. rewrite H. unfold resolved, throw, console. simpl.
  repeat (case_match; simplify_eq/=); try done;
    cbv [mret io_ret] in *; by simplify_eq.
Qed.

Lemma latest_in_versions (E : env) (n : string) (vs : GithubVersions) (l : string) :
  getVersions E n = Return vs → latest vs = Some l → l ∈ versions vs.
Proof.
  intros (refs & bs & _ & _ & ->)%getVersions_Return. simpl.
  destruct (tagNames_of refs) as [|x xs]; [done |].
  intros [= ->]. apply elem_of_app. left. apply list_elem_of_here.
Qed.

Lemma truthy_str_true (s : string) : truthy_str s = true ↔ s ≠ "".
Proof. unfold truthy_str. case_bool_decide; naive_solver. Qed.

(** C1, as the code has it. Let [getVersions] return [vs] and [v] be a
    non-empty string. If [v] is not the word "latest" and is among the
    versions, [isOutdated(name, v, v)] returns false. If [v] is the word
    "latest", the target is first resolved to the newest tag, and the call
    returns false only when that tag is itself named "latest"; otherwise it
    returns true. *)
Theorem isOutdated_same_version (E : env) (self : GithubProvider) (n v : string)
    (vs : GithubVersions) :
  getVersions E n = Return vs →
  v ≠ "" →
  (v ≠ "latest" → v ∈ versions vs → (isOutdated E self n v v).2 = Return false) ∧
  (v = "latest" →
   (isOutdated E self n v v).2 =
     Return (negb (bool_decide (latest vs = Some "latest")))).
Proof.
  intros Hvs Hv. rewrite (isOutdated_Return _ _ _ _ _ _ Hvs). unfold resolved.
  split.
  - intros Hl Hin. rewrite bool_decide_false by done. simpl.
    rewrite (proj2 (truthy_str_true v)) by done.
    rewrite (bool_decide_true (v ∈ versions vs)) by done. simpl.
    rewrite (bool_decide_true (Some v = Some v)) by done.
    by case_match.
  - intros ->. rewrite bool_decide_true by done.
    destruct (latest vs) as [l|] eqn:Hlatest; [| done].
    pose proof (latest_in_versions _ _ _ _ Hvs Hlatest) as Hin. simpl.
    rewrite (bool_decide_true (l ∈ versions vs)) by done.
    rewrite andb_false_r. simpl.
    destruct (decide (l = "latest")) as [-> | Hne].
    + by rewrite !bool_decide_true by done.
    + rewrite (bool_decide_false (Some l = Some "latest")) by naive_solver.
      rewrite (bool_decide_false (Some "latest" = Some l)) by naive_solver.
      by rewrite !andb_false_r.
Qed.

Lemma isOutdated_same_version_witness :
  (isOutdated demo repo "cli" "v1.1" "v1.1").2 = Return false.
Proof.
  refine (proj1 (isOutdated_same_version demo repo "cli" "v1.1" _ eq_refl _) _ _).
  - discriminate.
  - discriminate.
  - by_evaluation.
Defined.

(** C1 as the spec states it fails at the non-empty string "latest": with
    newest tag "v2.0" the target resolves to "v2.0", passes the existence
    check, differs from the current version "latest", and the call returns
    true. *)
Lemma isOutdated_same_version_latest_differs :
  "latest" ≠ "" ∧
  isOutdated demo repo "cli" "latest" "latest" = ([], Return true) ∧
  (isOutdated demo repo "cli" "latest" "latest").2 ≠ Return false.
Proof. by split_and!. Qed.

(** C5. [isOutdated] throws a [ValidationError] exactly when [getVersions]
    returned a version set and the resolved target is a non-empty string
    that is not in its [versions]; with no resolved target or an empty one
    the existence check throws nothing. *)
Theorem isOutdated_ValidationError_iff (E : env) (self : GithubProvider)
    (n c t : string) :
  (∃ msg, (isOutdated E self n c t).2 = Throw (ValidationError msg)) ↔
  (∃ vs r, getVersions E n = Return vs ∧ resolved vs t = Some r ∧
           r ≠ "" ∧ r ∉ versions vs).
Proof.
  destruct (getVersions E n) as [vs | e] eqn:Hvs.
  - rewrite (isOutdated_Return _ _ _ _ _ _ Hvs). split.
    + intros [msg Hmsg]. exists vs.
      destruct (resolved vs t) as [r|] eqn:Hr; simpl in Hmsg.
      * destruct (truthy_str r) eqn:Htr; simpl in Hmsg;
          [| by repeat case_match].
        destruct (bool_decide (r ∈ versions vs)) eqn:Hin; simpl in Hmsg;
          [by repeat case_match |].
        exists r. split_and!; [done .. | |].
        -- by apply truthy_str_true.
        -- by apply bool_decide_eq_false in Hin.
      * by repeat case_match.
    + intros (vs' & r & [= <-] & -> & Hr & Hnin). simpl.
      rewrite (proj2 (truthy_str_true r)) by done.
      rewrite (bool_decide_false (r ∈ versions vs)) by done. simpl. eauto.
  - rewrite (isOutdated_Throw _ _ _ _ _ _ Hvs). simpl. split.
    + intros [msg [= ->]]. by destruct (getVersions_not_validation E n msg).
    + by intros (vs & r & ? & _).
Qed.

(** C9. When the tag request is answered with no tag, [latest] has no
    value, and [isOutdated(name, currentVersion, "latest")] returns true for
    every current version, with no exception thrown and no warning logged. *)
Theorem isOutdated_latest_without_tags (E : env) (self : GithubProvider)
    (n c : string) (bs : list Branch.t) :
  answered (tags_response E) [] →
  answered (branches_response E) bs →
  (∃ vs, getVersions E n = Return vs ∧ latest vs = None ∧
         resolved vs "latest" = None) ∧
  isOutdated E self n c "latest" = ([], Return true).
Proof.
  intros Ht Hb. pose proof (getVersions_answered E n _ _ Ht Hb) as Hvs.
  split; [by eexists |].
  unfold isOutdated. by rewrite Hvs.
Qed.

Lemma isOutdated_latest_without_tags_witness :
  isOutdated (plain (ok []) (ok [Branch.mk "main" true])) repo "cli" "1.0.0" "latest"
    = ([], Return true).
Proof.
  apply (isOutdated_latest_without_tags
           (plain (ok []) (ok [Branch.mk "main" true])) repo "cli" "1.0.0"
           [Branch.mk "main" true]);
    (split; [discriminate | reflexivity]).
Defined.

(** ** Failures of [getVersions] *)

(** C7, as the code has it. A response without a status makes [gitFetch]
    throw a plain [Error] with a fixed message; a body with both a [message]
    and a [documentation_url] field makes it throw a plain [Error] whose
    message is the two joined by a space. [getVersions] fails with the error
    of the failing request, and with that of the request that settles first
    when both fail. It never fails with a [ValidationError]. *)
Theorem getVersions_fetch_errors (E : env) (n : string) :
  (∀ T (r : response T), status r = 0 → gitFetch r = Throw (Error fetch_failed)) ∧
  (∀ T (r : response T) (fields : gmap string string) (m d : string),
     status r ≠ 0 → json r = Obj fields →
     fields !! "message" = Some m → fields !! "documentation_url" = Some d →
     gitFetch r = Throw (Error (m +:+ " " +:+ d))) ∧
  (∀ et, gitFetch (tags_response E) = Throw et →
     match gitFetch (branches_response E), settles_first E with
     | Throw eb, Branches => getVersions E n = Throw eb
     | _, _ => getVersions E n = Throw et
     end) ∧
  (∀ eb, gitFetch (branches_response E) = Throw eb →
     match gitFetch (tags_response E), settles_first E with
     | Throw et, GitRefsTags => getVersions E n = Throw et
     | _, _ => getVersions E n = Throw eb
     end) ∧
  (∀ msg, getVersions E n ≠ Throw (ValidationError msg)).
Proof.
  split_and!.
  - intros T r Hs. unfold gitFetch. by rewrite decide_True.
  - intros T r fields m d Hs Hj Hm Hd. unfold gitFetch.
    by rewrite decide_False, Hj, Hm, Hd.
  - intros et Ht. unfold getVersions. rewrite Ht.
    by destruct (gitFetch (branches_response E)), (settles_first E).
  - intros eb Hb. unfold getVersions. rewrite Hb.
    by destruct (gitFetch (tags_response E)), (settles_first E).
  - apply getVersions_not_validation.
Qed.

Lemma getVersions_fetch_errors_witness :
  getVersions (plain (mkResponse 0 (Arr [])) (ok [])) "cli"
    = Throw (Error fetch_failed) ∧
  getVersions (plain (mkResponse 403 (Obj rate_limited)) (ok [])) "cli"
    = Throw (Error "API rate limit exceeded https://docs.github.com/rest").
Proof.
  split.
  - pose proof (getVersions_fetch_errors
                  (plain (mkResponse 0 (Arr [])) (ok [])) "cli")
      as (Hnet & _ & Htags & _).
    exact (Htags _ (Hnet _ (mkResponse 0 (Arr [])) eq_refl)).
  - pose proof (getVersions_fetch_errors
                  (plain (mkResponse 403 (Obj rate_limited)) (ok [])) "cli")
      as (_ & Hapi & Htags & _).
    refine (Htags _ (Hapi _ (mkResponse 403 (Obj rate_limited)) rate_limited
                       "API rate limit exceeded" "https://docs.github.com/rest"
                       _ eq_refl _ _)).
    + discriminate.
    + by vm_compute.
    + by vm_compute.
Defined.

(** C7 as the spec states it fails: the two failures are not two error
    kinds. Both are a plain [Error], and a provider payload can carry the
    very text of the transport failure, so that the two exceptions are
    equal. *)
Lemma getVersions_fetch_errors_same_kind :
  ∃ message,
    getVersions (plain (mkResponse 0 (Arr [])) (ok [])) "cli"
      = Throw (Error message) ∧
    getVersions (plain (mkResponse 403 (Obj looks_like_fetch_failure)) (ok [])) "cli"
      = Throw (Error message).
Proof. exists fetch_failed. split; by vm_compute. Qed.

(** ** Unprotected branches *)

Lemma has_space_app (s t : string) :
  has_space (s +:+ t) = has_space s || has_space t.
Proof.
  induction s as [|a s IH]; [done |].
  rewrite app_cons. simpl. by rewrite IH, orb_assoc.
Qed.

Lemma has_space_branch_label (E : env) (b : Branch.t) :
  has_space (branch_label E b) = true.
Proof.
  unfold branch_label. rewrite has_space_app.
  apply orb_true_intro. right. by rewrite has_space_app.
Qed.

Lemma app_neq (s t : string) : t ≠ "" → s +:+ t ≠ s.
Proof.
  intros Ht. induction s as [|a s IH].
  - by destruct t.
  - rewrite app_cons. by intros [= ?].
Qed.

Lemma elem_of_branchNames_of (E : env) (bs : list Branch.t) (x : string) :
  x ∈ branchNames_of E bs ↔ ∃ b, b ∈ bs ∧ x = branch_label E b.
Proof.
  unfold branchNames_of. rewrite elem_of_reverse, list_elem_of_fmap, sort_protected.
  split.
  - intros (b & -> & Hb). exists b. split; [| done].
    apply elem_of_app in Hb as [Hb | Hb];
      by apply list_elem_of_filter in Hb as [_ ?].
  - intros (b & Hb & ->). exists b. split; [done |].
    apply elem_of_app. destruct (Branch.protected b) eqn:Hp.
    + right. by apply list_elem_of_filter.
    + left. by apply list_elem_of_filter.
Qed.

(** C8, as the code has it. An unprotected branch named [b] is stored in
    [branches], and so in [versions], as [b] followed by a space, which is
    not [b]. A target [b] that is non-empty, is not the word "latest",
    holds no space and is not a tag name makes [isOutdated] throw a
    [ValidationError]. *)
Theorem unprotected_branch_entry (E : env) (self : GithubProvider) (n c b : string)
    (refs : list TagRef.t) (bs : list Branch.t) :
  answered (tags_response E) refs →
  answered (branches_response E) bs →
  Branch.mk b false ∈ bs →
  ∃ vs, getVersions E n = Return vs ∧
    b +:+ " " ∈ branches vs ∧
    b +:+ " " ∈ versions vs ∧
    b +:+ " " ≠ b ∧
    (b ≠ "" → b ≠ "latest" → has_space b = false → b ∉ tags vs →
     ∃ msg, isOutdated E self n c b = ([], Throw (ValidationError msg))).
Proof.
  intros Ht Hb Hin. pose proof (getVersions_answered E n _ _ Ht Hb) as Hvs.
  eexists. split; [exact Hvs |]. simpl.
  assert (b +:+ " " ∈ branchNames_of E bs) as Hentry.
  { apply elem_of_branchNames_of. eexists. split; [exact Hin |].
    unfold branch_label. simpl. by rewrite app_empty_r. }
  split_and!.
  - done.
  - apply elem_of_app. by right.
  - by apply app_neq.
  - intros Hne Hnl Hsp Htag.
    assert (b ∉ tagNames_of refs ++ branchNames_of E bs) as Hnin.
    { intros [? | (b' & _ & ->)%elem_of_branchNames_of]%elem_of_app; [done |].
      by rewrite has_space_branch_label in Hsp. }
    unfold isOutdated, throw. rewrite Hvs. simpl.
    rewrite bool_decide_false by done. simpl.
    rewrite (proj2 (truthy_str_true b)) by done.
    rewrite bool_decide_false by done. simpl. eauto.
Qed.

Lemma unprotected_branch_entry_witness :
  ∃ msg, isOutdated demo repo "cli" "v1.0" "dev" = ([], Throw (ValidationError msg)).
Proof.
  destruct (unprotected_branch_entry demo repo "cli" "v1.0" "dev"
              [tag "v1.0"; tag "v1.1"; tag "v2.0"]
              [Branch.mk "main" true; Branch.mk "dev" false])
    as (vs & Hvs & _ & _ & _ & Hthrow).
  - split; [discriminate | reflexivity].
  - split; [discriminate | reflexivity].
  - by_evaluation.
  - apply Hthrow; [discriminate | discriminate | reflexivity |].
    vm_compute in Hvs. injection Hvs as <-. simpl. by_evaluation.
Defined.

(** C8 as the spec states it fails for an unprotected branch named
    "latest": the name is no tag name, yet as a target it is resolved to the
    newest tag, passes the existence check, and nothing is thrown. *)
Lemma unprotected_branch_latest_passes :
  Branch.mk "latest" false ∈ [Branch.mk "latest" false] ∧
  getVersions branch_named_latest "cli" =
    Return {| versions := ["v1.0"; "latest "]; latest := Some "v1.0";
              tags := ["v1.0"]; branches := ["latest "] |} ∧
  ("latest" ∉ ["v1.0"]) ∧
  isOutdated branch_named_latest repo "cli" "v0.9" "latest" = ([], Return true).
Proof. split_and!; [by_evaluation | done | by_evaluation | done]. Qed.

(** ** The action of the upgrade command *)

Lemma run_upgrade (h : ∀ X, providerE X → io X) (o : UpgradeOptions) :
  (run h (Call (Upgrade o) Done)).1 = [CallUpgrade o].
Proof. simpl. by destruct (h unit (Upgrade o)) as [out [[]|e]]. Qed.

Lemma run_isOutdated {R} (h : ∀ X, providerE X → io X) (n c t : string)
    (k : bool → prog R) :
  (run h (Call (IsOutdated n c t) k)).1 =
    CallIsOutdated n c t ::
      match (h bool (IsOutdated n c t)).2 with
      | Return outdated => (run h (k outdated)).1
      | Throw _ => []
      end.
Proof.
  simpl. destruct (h bool (IsOutdated n c t)) as [out [b|e]]; simpl; [| done].
  by destruct (run h (k b)) as [calls [out' r]].
Qed.

(** C10. Against any provider, the calls the action makes are: [upgrade]
    alone, with no call of [isOutdated], when [force] is set or there is no
    current version; [isOutdated] only when [force] is unset and there is a
    current version, and then [upgrade] follows exactly when [isOutdated]
    returned true. *)
Theorem action_calls (h : ∀ X, providerE X → io X) (n : string)
    (currentVersion : option string) (t : string) (force : bool) :
  let calls := (run h (action n currentVersion t force)).1 in
  let up := CallUpgrade {| name := n; from := currentVersion; to := t |} in
  (force = true ∨ truthy currentVersion = false → calls = [up]) ∧
  (∀ n' c' t', CallIsOutdated n' c' t' ∈ calls →
     force = false ∧ truthy currentVersion = true ∧
     currentVersion = Some c' ∧ n' = n ∧ t' = t) ∧
  (∀ c, force = false → truthy currentVersion = true → currentVersion = Some c →
     ((h bool (IsOutdated n c t)).2 = Return true → calls = [CallIsOutdated n c t; up]) ∧
     ((h bool (IsOutdated n c t)).2 ≠ Return true → calls = [CallIsOutdated n c t])).
Proof.
  unfold action. split_and!.
  - intros [-> | Hc].
    + destruct currentVersion; apply run_upgrade.
    + destruct currentVersion as [c|]; [| apply run_upgrade].
      rewrite Hc, orb_true_r. apply run_upgrade.
  - intros n' c' t'.
    destruct currentVersion as [c|];
      [| rewrite run_upgrade; intros Hin; not_the_call Hin].
    destruct force, (truthy (Some c)) eqn:Hc; cbn [orb negb];
      try (rewrite run_upgrade; intros Hin; not_the_call Hin).
    rewrite run_isOutdated.
    intros [[= -> -> ->] | Hin]%elem_of_cons; [done |].
    destruct ((h bool (IsOutdated n c t)).2) as [[]|e].
    + rewrite run_upgrade in Hin. not_the_call Hin.
    + by apply elem_of_nil in Hin.
    + by apply elem_of_nil in Hin.
  - intros c -> Hc ->. rewrite Hc. cbn [orb negb].
    rewrite run_isOutdated.
    destruct ((h bool (IsOutdated n c t)).2) as [[]|e]; split; try done.
    intros _. by rewrite run_upgrade.
Qed.

Lemma action_calls_witness :
  (run (github demo repo) (action "cli" None "latest" false)).1 =
    [CallUpgrade {| name := "cli"; from := None; to := "latest" |}] ∧
  (run (github demo repo) (action "cli" (Some "v1.0") "latest" false)).1 =
    [CallIsOutdated "cli" "v1.0" "latest";
     CallUpgrade {| name := "cli"; from := Some "v1.0"; to := "latest" |}] ∧
  (run (github demo repo) (action "cli" (Some "v2.0") "latest" false)).1 =
    [CallIsOutdated "cli" "v2.0" "latest"].
Proof.
  split_and!.
  - apply (action_calls (github demo repo) "cli" None "latest" false). by right.
  - by apply (action_calls (github demo repo) "cli" (Some "v1.0") "latest" false).
  - by apply (action_calls (github demo repo) "cli" (Some "v2.0") "latest" false).
Defined.

(** ** The table of [printVersions] *)

Lemma cells_S (entries : list string) (rowSize r n : nat) :
  cells entries rowSize r (S n) =
    cells entries rowSize r n ++ [entries !! (n * rowSize + r)].
Proof. unfold cells. by rewrite seq_S, fmap_app. Qed.

Lemma length_cells (entries : list string) (rowSize r n : nat) :
  length (cells entries rowSize r n) = n.
Proof. unfold cells. by rewrite length_fmap, length_seq. Qed.

Lemma js_set_end {A} (a : js_array A) (n : nat) (v : option A) :
  length a = n → js_set a n v = a ++ [v].
Proof.
  intros <-. unfold js_set. rewrite decide_False by lia.
  by rewrite Nat.sub_diag.
Qed.

Lemma js_set_inside {A} (a : js_array A) (i : nat) (v : option A) :
  i < length a → js_set a i v = <[i := v]> a.
Proof. intros Hi. unfold js_set. by rewrite decide_True. Qed.

Lemma filling_start (entries : list string) (rowSize k : nat) :
  filling entries rowSize k 0 = column_major_grid entries rowSize k.
Proof. done. Qed.

Lemma filling_end (entries : list string) (rowSize k : nat) :
  filling entries rowSize k rowSize = column_major_grid entries rowSize (S k).
Proof.
  unfold filling, column_major_grid.
  apply Forall_fmap_ext_1, Forall_forall. intros r [_ Hr]%elem_of_seq.
  by rewrite decide_True by lia.
Qed.

Lemma lookup_filling (entries : list string) (rowSize k j r : nat) :
  r < rowSize →
  filling entries rowSize k j !! r =
    Some (Some (cells entries rowSize r (if decide (r < j) then S k else k))).
Proof.
  intros Hr. unfold filling.
  by rewrite list_lookup_fmap, lookup_seq_lt.
Qed.

(** One pass of the inner loop in a column after the first. *)
Lemma fill_cell_filling (entries : list string) (rowSize k j : nat) :
  j < rowSize →
  fill_cell entries k (filling entries rowSize k j, k * rowSize + j) j =
    (filling entries rowSize k (S j), k * rowSize + S j).
Proof.
  intros Hj. unfold fill_cell, js_get.
  rewrite lookup_filling by done. simpl.
  rewrite lookup_filling by done. simpl.
  rewrite decide_False by lia.
  rewrite (js_set_end _ k) by apply length_cells.
  rewrite <- cells_S.
  rewrite js_set_inside by (unfold filling; by rewrite length_fmap, length_seq).
  f_equal; [| lia].
  apply list_eq. intros i. destruct (decide (i = j)) as [-> | Hij].
  - rewrite list_lookup_insert_eq
      by (unfold filling; by rewrite length_fmap, length_seq).
    rewrite lookup_filling by done. by rewrite decide_True by lia.
  - rewrite list_lookup_insert_ne by done.
    destruct (decide (i < rowSize)) as [Hi | Hi].
    + rewrite !lookup_filling by done.
      destruct (decide (i < j)), (decide (i < S j)); (done || lia).
    + unfold filling.
      by rewrite !list_lookup_fmap, !lookup_seq_ge by lia.
Qed.

Lemma fill_column_filling (entries : list string) (rowSize k j : nat) :
  j ≤ rowSize →
  foldl (fill_cell entries k)
    (filling entries rowSize k 0, k * rowSize) (seq 0 j) =
  (filling entries rowSize k j, k * rowSize + j).
Proof.
  induction j as [|j IH]; intros Hj.
  - simpl. by rewrite Nat.add_0_r.
  - rewrite seq_S, foldl_app, IH by lia. simpl.
    by apply fill_cell_filling.
Qed.

(** The first column creates the rows. *)
Lemma fill_first_column (entries : list string) (j : nat) :
  foldl (fill_cell entries 0) ([], 0) (seq 0 j) =
    ((λ r, Some [entries !! r]) <$> seq 0 j, j).
Proof.
  induction j as [|j IH]; [done |].
  rewrite seq_S, foldl_app, IH. simpl.
  set (rows := (λ r, Some [entries !! r]) <$> seq 0 j).
  assert (length rows = j) as Hlen
    by (unfold rows; by rewrite length_fmap, length_seq).
  unfold fill_cell, js_get.
  rewrite (lookup_ge_None_2 rows j) by lia. simpl.
  rewrite (js_set_end rows j) by done.
  rewrite lookup_app_r, Hlen, Nat.sub_diag by lia. simpl.
  rewrite js_set_inside by (rewrite length_app; simpl; lia).
  rewrite (js_set_end [] 0) by done.
  replace j with (length rows + 0) at 1 by lia.
  rewrite insert_app_r. simpl.
  by rewrite fmap_app.
Qed.

Lemma first_column_grid (entries : list string) (rowSize : nat) :
  (λ r, Some [entries !! r]) <$> seq 0 rowSize =
    column_major_grid entries rowSize 1.
Proof. done. Qed.

(** The two loops build the column-major grid. *)
Lemma fill_table_grid (entries : list string) (rowSize colSize : nat) :
  0 < colSize →
  fill_table entries rowSize colSize = column_major_grid entries rowSize colSize.
Proof.
  intros Hc. unfold fill_table.
  assert (∀ k, foldl (fill_column entries rowSize) ([], 0) (seq 0 (S k)) =
               (column_major_grid entries rowSize (S k), S k * rowSize)) as Hk.
  { induction k as [|k IH].
    - simpl. unfold fill_column. rewrite fill_first_column, first_column_grid.
      f_equal. lia.
    - rewrite seq_S, foldl_app, IH. simpl foldl. unfold fill_column.
      rewrite <- filling_start, fill_column_filling by done.
      rewrite filling_end. f_equal. simpl. lia. }
  destruct colSize as [|k]; [lia |]. by rewrite Hk.
Qed.

Lemma cell_grid (entries : list string) (rowSize colSize r c : nat) :
  r < rowSize → c < colSize →
  cell (column_major_grid entries rowSize colSize) r c = entries !! (c * rowSize + r).
Proof.
  intros Hr Hc. unfold cell, js_get, column_major_grid, cells.
  rewrite list_lookup_fmap, lookup_seq_lt by done. simpl.
  by rewrite list_lookup_fmap, lookup_seq_lt by done.
Qed.

Lemma ceil_div_bounds (n m : nat) :
  0 < m → n ≤ ceil_div n m * m ∧ (0 < n → (ceil_div n m - 1) * m < n).
Proof.
  intros Hm. unfold ceil_div.
  pose proof (Nat.div_mod_eq n m) as Hdm.
  pose proof (Nat.mod_upper_bound n m ltac:(lia)) as Hlt.
  case_decide; nia.
Qed.

(** C2. For more than 25 entries and a positive column count,
    [printVersions] logs one table. With [count] the number of entries,
    [rowSize] is the least number of rows of [maxCols] cells that hold
    [count] entries, that is ceil(count / maxCols), and [colSize] is
    min(count, maxCols). The table is the column-major grid: it has
    [rowSize] rows of [colSize] cells each, entry [i] (marked) is in row
    [i mod rowSize] and column [i div rowSize], and a cell past the last
    entry holds [undefined], not a blank string. For 30 entries and 8
    columns, [rowSize] is 4, [colSize] is 8, and the last column holds
    entries 28 and 29 followed by two [undefined] cells. *)
Theorem printVersions_table (E : env) (versions : list string)
    (currentVersion : option string) (cols indent : nat) :
  maxListSize < length versions →
  0 < cols →
  let entries := mark E currentVersion <$> versions in
  let count := length versions in
  let rowSize := ceil_div count cols in
  let colSize := count `min` cols in
  (count ≤ rowSize * cols ∧ (rowSize - 1) * cols < count) ∧
  ∃ table,
    printVersions E versions currentVersion (Some cols) indent
      = ([ConsoleLogTable indent table], Return tt) ∧
    table = column_major_grid entries rowSize colSize ∧
    length table = rowSize ∧
    (∀ r row, table !! r = Some row → ∃ cs, row = Some cs ∧ length cs = colSize) ∧
    (∀ i, i < count →
       is_Some (entries !! i) ∧
       cell table (i `mod` rowSize) (i / rowSize) = entries !! i) ∧
    (∀ r c, r < rowSize → c < colSize → count ≤ c * rowSize + r →
       cell table r c = None) ∧
    (count = 30 → cols = 8 →
       rowSize = 4 ∧ colSize = 8 ∧
       (λ r, cell table r 7) <$> seq 0 4 =
         [entries !! 28; entries !! 29; None; None] ∧
       is_Some (entries !! 28) ∧ is_Some (entries !! 29)).
Proof.
  intros Hmany Hcols entries count rowSize colSize.
  unfold maxListSize in Hmany.
  assert (length entries = count) as Hlen by apply length_fmap.
  destruct (ceil_div_bounds count cols Hcols) as [Hceil Hleast].
  fold rowSize in Hceil, Hleast.
  split; [split; [done | apply Hleast; unfold count; lia] |].
  exists (column_major_grid entries rowSize colSize).
  assert (0 < rowSize) as Hrows by (unfold count in *; nia).
  split_and!.
  - unfold printVersions. rewrite decide_False by lia.
    fold entries. rewrite Hlen. unfold maxListSize. rewrite decide_True by done.
    simpl. fold count rowSize colSize. unfold console.
    by rewrite fill_table_grid by (unfold colSize, count; lia).
  - done.
  - unfold column_major_grid. by rewrite length_fmap, length_seq.
  - intros r row. unfold column_major_grid.
    rewrite list_lookup_fmap. intros Hrow.
    destruct (seq 0 rowSize !! r) as [r'|]; [| done].
    injection Hrow as <-. eexists. split; [done |]. apply length_cells.
  - assert (colSize = count `min` cols) as Hmin by done.
    clearbody entries count rowSize colSize. intros i Hi.
    split; [apply lookup_lt_is_Some_2; lia |].
    pose proof (Nat.div_mod_eq i rowSize) as Hdm.
    pose proof (Nat.mod_upper_bound i rowSize ltac:(lia)) as Hmod.
    rewrite cell_grid; [f_equal; lia | done | nia].
  - clearbody entries count rowSize colSize.
    intros r c Hr Hc Hpast. rewrite cell_grid by done.
    apply lookup_ge_None_2. lia.
  - intros H30 ->. unfold rowSize, colSize. rewrite H30.
    change (ceil_div 30 8) with 4. change (30 `min` 8) with 8.
    clearbody entries count rowSize colSize.
    split_and!; [done | done | | apply lookup_lt_is_Some_2; lia ..].
    simpl. rewrite !cell_grid by lia. simpl.
    by rewrite (lookup_ge_None_2 entries 30), (lookup_ge_None_2 entries 31) by lia.
Qed.

Lemma printVersions_table_witness :
  ∃ table,
    printVersions demo thirty (Some "v29") (Some 8) 2
      = ([ConsoleLogTable 2 table], Return tt) ∧
    length table = 4 ∧
    (λ r, cell table r 7) <$> seq 0 4 = [Some "  v28"; Some "* v29"; None; None].
Proof.
  destruct (printVersions_table demo thirty (Some "v29") 8 2)
    as (_ & table & Hlog & _ & Hrows & _ & _ & _ & H30).
  - vm_compute. lia.
  - lia.
  - exists table. split; [exact Hlog |]. split; [exact Hrows |].
    by destruct (H30 eq_refl eq_refl) as (_ & _ & -> & _).
Defined.

(** * Further properties *)

Set Warnings "-clear-no-such-hyp".

(** ** The decision of [isOutdated] *)

(** [isOutdated] with the console, once [getVersions] has returned. *)
Lemma isOutdated_unfold (E : env) (self : GithubProvider) (n c t : string)
    (vs : GithubVersions) :
  getVersions E n = Return vs →
  isOutdated E self n c t =
    if truthy (resolved vs t) && negb (includes (versions vs) (resolved vs t))
    then ([], Throw (ValidationError (not_found E self n (resolved vs t))))
    else if truthy (latest vs) && bool_decide (latest vs = Some c)
            && bool_decide (latest vs = resolved vs t)
    then ([already_latest E n c], Return false)
    else if truthy (resolved vs t) && bool_decide (Some c = resolved vs t)
    then ([already_installed E n c], Return false)
    else ([], Return true).
Proof.
  intros H. unfold isOutdated. rewrite H. unfold resolved. simpl.
  destruct (truthy _ && negb _); [done |].
  destruct (truthy _ && _ && _); [done |].
  by destruct (truthy _ && _).
Qed.

Lemma truthy_str_false (s : string) : truthy_str s = false ↔ s = "".
Proof. unfold truthy_str. case_bool_decide; naive_solver. Qed.


(** X1. Once [getVersions] has returned, [isOutdated] returns false exactly
    when the resolved target is the current version, is not empty and is
    among the versions; the check against [latest] adds no case of its own.
    It returns true exactly when the resolved target is missing or empty,
    or is among the versions and differs from the current version. *)
Theorem isOutdated_decision (E : env) (self : GithubProvider) (n c t : string)
    (vs : GithubVersions) :
  getVersions E n = Return vs →
  ((isOutdated E self n c t).2 = Return false ↔
     resolved vs t = Some c ∧ c ≠ "" ∧ c ∈ versions vs) ∧
  ((isOutdated E self n c t).2 = Return true ↔
     truthy (resolved vs t) = false ∨
     ∃ r, resolved vs t = Some r ∧ r ∈ versions vs ∧ r ≠ c).
Proof.
  intros Hvs. rewrite (isOutdated_unfold _ _ _ _ _ _ Hvs).
  destruct (resolved vs t) as [r|], (latest vs) as [l|]; simpl;
    try destruct (truthy_str r) eqn:Hr; try destruct (truthy_str l) eqn:Hl;
    simpl; repeat (case_bool_decide; simpl);
    rewrite ?truthy_str_true, ?truthy_str_false in *;
    naive_solver.
Qed.

Lemma isOutdated_decision_witness :
  (isOutdated demo repo "cli" "v1.0" "latest").2 = Return true.
Proof.
  apply (proj2 (isOutdated_decision demo repo "cli" "v1.0" "latest" _ eq_refl)).
  right. exists "v2.0". split_and!; [reflexivity | by_evaluation | discriminate].
Defined.

(** X2. [isOutdated] writes to the console exactly when it returns false,
    and then one warning: the one about the latest version when the current
    version is the newest tag, the one about the installed version
    otherwise. When it returns true or throws it has written nothing. *)
Theorem isOutdated_warns_iff_false (E : env) (self : GithubProvider)
    (n c t : string) :
  match (isOutdated E self n c t).2 with
  | Return false =>
      ∃ vs, getVersions E n = Return vs ∧
        (isOutdated E self n c t).1 =
          [if bool_decide (latest vs = Some c)
           then already_latest E n c else already_installed E n c]
  | _ => (isOutdated E self n c t).1 = []
  end.
Proof.
  destruct (getVersions E n) as [vs | e] eqn:Hvs;
    [| by rewrite (isOutdated_Throw _ _ _ _ _ _ Hvs)].
  rewrite (isOutdated_unfold _ _ _ _ _ _ Hvs).
  destruct (truthy _ && negb _) eqn:Hexists; [done |].
  destruct (truthy (latest vs) && _ && _) eqn:Hlatest; simpl.
  - exists vs. split; [done |].
    apply andb_prop in Hlatest as [[_ Hl]%andb_prop _].
    by rewrite Hl.
  - destruct (truthy _ && bool_decide (Some c = _)) eqn:Hsame; simpl; [| done].
    exists vs. split; [done |].
    apply andb_prop in Hsame as [Ht Heq]. apply bool_decide_eq_true in Heq.
    rewrite <- Heq in *. case_bool_decide as Hl; [| done].
    by rewrite Hl, Ht in Hlatest.
Qed.

(** X3. Every version [getAllVersions] offers for completion is accepted by
    [isOutdated] as a target: the call returns a boolean and throws
    nothing. *)
Theorem isOutdated_accepts_completions (E : env) (self : GithubProvider)
    (n c v : string) (offered : list string) :
  getAllVersions E n = Return offered →
  v ∈ offered →
  ∃ outdated, (isOutdated E self n c v).2 = Return outdated.
Proof.
  unfold getAllVersions.
  destruct (getVersions E n) as [vs | e] eqn:Hvs; [| done].
  intros [= <-] Hin. rewrite (isOutdated_Return _ _ _ _ _ _ Hvs).
  assert (truthy (resolved vs v)
          && negb (includes (versions vs) (resolved vs v)) = false) as ->.
  { unfold resolved. case_bool_decide.
    - destruct (latest vs) as [l|] eqn:Hl; [| done]. simpl.
      rewrite (bool_decide_true (l ∈ versions vs))
        by by eapply latest_in_versions.
      apply andb_false_r.
    - simpl. rewrite (bool_decide_true (v ∈ versions vs)) by done.
      apply andb_false_r. }
  repeat case_match; eauto.
Qed.

Lemma isOutdated_accepts_completions_witness :
  ∃ outdated, (isOutdated demo repo "cli" "v1.0" "dev ").2 = Return outdated.
Proof.
  apply (isOutdated_accepts_completions demo repo "cli" "v1.0" "dev "
           ["v2.0"; "v1.1"; "v1.0"; "main (Protected)"; "dev "]).
  - reflexivity.
  - by_evaluation.
Defined.

(** ** [upgrade] *)

(** X4. [upgrade] fails only on the target "latest", and then with the
    failure of [getVersions]; it never throws a [ValidationError]. With any
    other target it asks the network nothing and checks nothing: it writes
    its one line of success and returns. *)
Theorem upgrade_fails_iff (E : env) (self : GithubProvider) (o : UpgradeOptions) :
  (∀ e, (upgrade E self o).2 = Throw e ↔
        to o = "latest" ∧ getVersions E (name o) = Throw e) ∧
  (∀ msg, (upgrade E self o).2 ≠ Throw (ValidationError msg)) ∧
  (to o ≠ "latest" →
   upgrade E self o = ([upgraded E self o (Some (to o))], Return tt)).
Proof.
  assert (∀ e, (upgrade E self o).2 = Throw e ↔
               to o = "latest" ∧ getVersions E (name o) = Throw e) as Hfails.
  { intros e. unfold upgrade. case_bool_decide as Hto; simpl.
    - destruct (getVersions E (name o)) as [vs | e']; simpl; naive_solver.
    - naive_solver. }
  split_and!.
  - done.
  - intros msg [_ Hv]%Hfails. by apply getVersions_not_validation in Hv.
  - intros Hto. unfold upgrade. by rewrite bool_decide_false by done.
Qed.

(** X5. On a repository without tags, [upgrade] to "latest" succeeds and
    reports the version [undefined], with the registry URL of a version
    named "undefined". *)
Theorem upgrade_latest_without_tags (E : env) (self : GithubProvider)
    (o : UpgradeOptions) (bs : list Branch.t) :
  answered (tags_response E) [] →
  answered (branches_response E) bs →
  to o = "latest" →
  upgrade E self o =
    ([ConsoleInfo
        ("Successfully upgraded " +:+ name o +:+ " from " +:+ template (from o) +:+
         " to version undefined! (" +:+
         url_href E (repositoryName self +:+ "/undefined/") registryUrl +:+ ")")],
     Return tt).
Proof.
  intros Ht Hb Hto. unfold upgrade.
  rewrite bool_decide_true by done.
  by rewrite (getVersions_answered E (name o) _ _ Ht Hb).
Qed.

Lemma upgrade_latest_without_tags_witness :
  upgrade (plain (ok []) (ok [])) repo (mkUpgrade "cli" None "latest") =
    ([ConsoleInfo
        "Successfully upgraded cli from undefined to version undefined! (https://raw.githubusercontent.com/owner/repo/undefined/)"],
     Return tt).
Proof.
  apply (upgrade_latest_without_tags (plain (ok []) (ok [])) repo
           (mkUpgrade "cli" None "latest") []);
    [split; [discriminate | reflexivity] .. | reflexivity].
Defined.

(** ** The action against the GitHub provider *)

(** X6. With [force] set and a target other than "latest", the action
    against the GitHub provider makes the one call of [upgrade] and
    succeeds, whatever the network answers and whether or not the target is
    a version of the repository. *)
Theorem forced_action_succeeds (E : env) (self : GithubProvider) (n t : string)
    (currentVersion : option string) :
  t ≠ "latest" →
  run (github E self) (action n currentVersion t true) =
    ([CallUpgrade {| name := n; from := currentVersion; to := t |}],
     ([upgraded E self {| name := n; from := currentVersion; to := t |} (Some t)],
      Return tt)).
Proof.
  intros Ht.
  assert (run (github E self)
            (Call (Upgrade {| name := n; from := currentVersion; to := t |}) Done) =
          ([CallUpgrade {| name := n; from := currentVersion; to := t |}],
           ([upgraded E self {| name := n; from := currentVersion; to := t |} (Some t)],
            Return tt))) as Hrun.
  { simpl. unfold upgrade. simpl. by rewrite bool_decide_false by done. }
  unfold action. by destruct currentVersion.
Qed.

Lemma forced_action_succeeds_witness :
  run (github (plain (mkResponse 0 Null) (mkResponse 0 Null)) repo)
      (action "cli" (Some "v1.0") "no-such-version" true) =
    ([CallUpgrade {| name := "cli"; from := Some "v1.0"; to := "no-such-version" |}],
     ([ConsoleInfo
         "Successfully upgraded cli from v1.0 to version no-such-version! (https://raw.githubusercontent.com/owner/repo/no-such-version/)"],
      Return tt)).
Proof.
  apply (forced_action_succeeds (plain (mkResponse 0 Null) (mkResponse 0 Null))
           repo "cli" "no-such-version" (Some "v1.0")).
  discriminate.
Defined.

Lemma run_action_not_outdated (h : ∀ X, providerE X → io X)
    (n c t : string) (out : list console_event) :
  truthy (Some c) = true →
  h bool (IsOutdated n c t) = (out, Return false) →
  run h (action n (Some c) t false) =
    ([CallIsOutdated n c t], (out, Return tt)).
Proof.
  intros Hc Hfalse. unfold action. rewrite Hc. cbn [orb negb].
  simpl. rewrite Hfalse. simpl. by rewrite app_nil_r.
Qed.

(** X7. Against any provider, when [isOutdated] is asked and throws, the
    action ends with that exception and the console as [isOutdated] left
    it; when it returns false the action returns with that console. In
    both cases [isOutdated] is the only call. *)
Theorem action_stops_after_isOutdated (h : ∀ X, providerE X → io X)
    (n c t : string) (out : list console_event) :
  truthy (Some c) = true →
  (∀ e, h bool (IsOutdated n c t) = (out, Throw e) →
        run h (action n (Some c) t false) =
          ([CallIsOutdated n c t], (out, Throw e))) ∧
  (h bool (IsOutdated n c t) = (out, Return false) →
   run h (action n (Some c) t false) =
     ([CallIsOutdated n c t], (out, Return tt))).
Proof.
  intros Hc. split.
  - intros e He. unfold action. rewrite Hc. cbn [orb negb].
    simpl. by rewrite He.
  - by apply run_action_not_outdated.
Qed.

Lemma action_stops_after_isOutdated_witness :
  run (github demo repo) (action "cli" (Some "v1.0") "v1.0" false) =
    ([CallIsOutdated "cli" "v1.0" "v1.0"],
     ([already_installed demo "cli" "v1.0"], Return tt)).
Proof.
  by apply (action_stops_after_isOutdated (github demo repo) "cli" "v1.0" "v1.0"
              [already_installed demo "cli" "v1.0"]).
Defined.

(** X8. Against the GitHub provider, a non-empty current version equal to
    the newest tag and the target "latest" make the action ask
    [isOutdated], warn that the latest version is in use, and return
    without calling [upgrade]. *)
Theorem action_already_latest (E : env) (self : GithubProvider) (n c : string)
    (vs : GithubVersions) :
  getVersions E n = Return vs →
  latest vs = Some c →
  c ≠ "" →
  run (github E self) (action n (Some c) "latest" false) =
    ([CallIsOutdated n c "latest"], ([already_latest E n c], Return tt)).
Proof.
  intros Hvs Hl Hc.
  apply (run_action_not_outdated (github E self)).
  - by apply truthy_str_true.
  - simpl. rewrite (isOutdated_unfold _ _ _ _ _ _ Hvs).
    unfold resolved. rewrite bool_decide_true by done. rewrite Hl. simpl.
    rewrite (proj2 (truthy_str_true c)) by done.
    rewrite (bool_decide_true (c ∈ versions vs))
      by by eapply latest_in_versions.
    by rewrite !bool_decide_true by done.
Qed.

Lemma action_already_latest_witness :
  run (github demo repo) (action "cli" (Some "v2.0") "latest" false) =
    ([CallIsOutdated "cli" "v2.0" "latest"],
     ([already_latest demo "cli" "v2.0"], Return tt)).
Proof.
  refine (action_already_latest demo repo "cli" "v2.0" _ eq_refl _ _).
  - reflexivity.
  - discriminate.
Defined.

(** ** Requests *)

(** X9. [gitFetch] looks at the HTTP status only to see whether there is
    one: two responses with the same body and any two non-zero statuses, a
    404 and a 200 say, fare alike. What it returns is the body of the
    response as it came. *)
Theorem gitFetch_status_only_zero {T} (r r' : response T) :
  status r ≠ 0 →
  status r' ≠ 0 →
  json r = json r' →
  gitFetch r = gitFetch r' ∧ ∀ data, gitFetch r = Return data → data = json r.
Proof.
  intros Hs Hs' Hj. unfold gitFetch. rewrite <- Hj.
  rewrite !decide_False by done. split; [done |].
  intros data. destruct (json r) as [items | fields | |]; try naive_solver.
  destruct (fields !! "message"), (fields !! "documentation_url"); naive_solver.
Qed.

Lemma gitFetch_status_only_zero_witness :
  gitFetch (mkResponse 404 (Arr [tag "v1.0"])) =
  gitFetch (mkResponse 200 (Arr [tag "v1.0"])).
Proof.
  apply (gitFetch_status_only_zero
           (mkResponse 404 (Arr [tag "v1.0"])) (mkResponse 200 (Arr [tag "v1.0"])));
    [discriminate | discriminate | reflexivity].
Defined.

(** X10. [getVersions] returns a version set exactly when both requests
    are answered with a status and an array; one failing request fails the
    whole call, there is no partial result. *)
Theorem getVersions_returns_iff (E : env) (n : string) :
  (∃ vs, getVersions E n = Return vs) ↔
  (∃ refs bs, answered (tags_response E) refs ∧ answered (branches_response E) bs).
Proof.
  split.
  - intros [vs (refs & bs & Ht & Hb & _)%getVersions_Return]. eauto.
  - intros (refs & bs & Ht & Hb). eexists. by apply getVersions_answered.
Qed.

(** X11. An object body that lacks [message] or [documentation_url] is not
    taken for an error payload: [gitFetch] returns it, and [getVersions]
    then fails with a [TypeError] where it calls the array method, not with
    the provider's message. *)
Theorem getVersions_partial_error_payload (E : env) (n : string)
    (fields : gmap string string) (bs : list Branch.t) :
  status (tags_response E) ≠ 0 →
  json (tags_response E) = Obj fields →
  fields !! "message" = None ∨ fields !! "documentation_url" = None →
  answered (branches_response E) bs →
  gitFetch (tags_response E) = Return (Obj fields) ∧
  getVersions E n = Throw TypeError.
Proof.
  intros Hs Hj Hmissing Hb.
  assert (gitFetch (tags_response E) = Return (Obj fields)) as Hfetch.
  { unfold gitFetch. rewrite decide_False, Hj by done.
    destruct Hmissing as [-> | ->]; [done |].
    by destruct (fields !! "message"). }
  split; [done |]. unfold getVersions.
  by rewrite Hfetch, (gitFetch_answered _ _ Hb).
Qed.

Lemma getVersions_partial_error_payload_witness :
  getVersions (plain (mkResponse 404 (Obj {[ "message" := "Not Found" ]})) (ok []))
    "cli" = Throw TypeError.
Proof.
  apply (getVersions_partial_error_payload
           (plain (mkResponse 404 (Obj {[ "message" := "Not Found" ]})) (ok []))
           "cli" {[ "message" := "Not Found" ]} []).
  - discriminate.
  - reflexivity.
  - right. by vm_compute.
  - split; [discriminate | reflexivity].
Defined.

(** ** Tags and branches as targets *)

(** X12. When the API lists the references "refs/tags/" + name for a list
    of names, [tags] is that list of names reversed and [latest] is the
    name listed last. *)
Theorem getVersions_latest_is_last_listed (E : env) (n : string)
    (names : list string) (bs : list Branch.t) :
  answered (tags_response E) (tag <$> names) →
  answered (branches_response E) bs →
  ∃ vs, getVersions E n = Return vs ∧
    tags vs = reverse names ∧ latest vs = last names.
Proof.
  intros Ht Hb. eexists. split; [by apply getVersions_answered |]. simpl.
  assert (tagNames_of (tag <$> names) = reverse names) as ->.
  { unfold tagNames_of. rewrite <- list_fmap_compose. f_equal.
    rewrite <- (list_fmap_id names) at 2.
    apply Forall_fmap_ext_1, Forall_forall. intros x _. simpl.
    unfold replace_prefix. by rewrite drop_prefix_app. }
  split; [done |]. apply head_reverse.
Qed.

Lemma getVersions_latest_is_last_listed_witness :
  ∃ vs, getVersions demo "cli" = Return vs ∧
    tags vs = ["v2.0"; "v1.1"; "v1.0"] ∧ latest vs = Some "v2.0".
Proof.
  apply (getVersions_latest_is_last_listed demo "cli" ["v1.0"; "v1.1"; "v2.0"]
           [Branch.mk "main" true; Branch.mk "dev" false]);
    (split; [discriminate | reflexivity]).
Defined.

(** X13. Every entry of [branches], protected or not, holds a space. So a
    target that is not empty, is not "latest" and holds no space, as no git
    reference name does, passes the existence check of [isOutdated] exactly
    when it is a tag name: no branch can be chosen by its name. *)
Theorem spacefree_target_must_be_tag (E : env) (self : GithubProvider)
    (n c t : string) (vs : GithubVersions) :
  getVersions E n = Return vs →
  t ≠ "" →
  t ≠ "latest" →
  has_space t = false →
  (∀ x, x ∈ branches vs → has_space x = true) ∧
  ((∃ msg, (isOutdated E self n c t).2 = Throw (ValidationError msg)) ↔
   t ∉ tags vs).
Proof.
  intros Hvs Hne Hnl Hsp.
  pose proof Hvs as (refs & bs & _ & _ & Heq)%getVersions_Return.
  assert (∀ x, x ∈ branches vs → has_space x = true) as Hspaces.
  { rewrite Heq. simpl. intros x (b & _ & ->)%elem_of_branchNames_of.
    apply has_space_branch_label. }
  split; [done |].
  assert (t ∈ versions vs ↔ t ∈ tags vs) as Hin.
  { rewrite Heq in *. simpl in *. rewrite elem_of_app. split; [| by left].
    intros [? | Hb%Hspaces]; [done |]. by rewrite Hb in Hsp. }
  rewrite (isOutdated_Return _ _ _ _ _ _ Hvs). unfold resolved.
  rewrite bool_decide_false by done. simpl.
  rewrite (proj2 (truthy_str_true t)) by done. simpl.
  case_bool_decide as Hv; simpl.
  - split; [| intros Htag; destruct Htag; by apply Hin].
    intros [msg Hmsg]. by repeat case_match.
  - split; [| by eauto]. intros _ Htag. by apply Hv, Hin.
Qed.

Lemma spacefree_target_must_be_tag_witness :
  ∃ msg, (isOutdated demo repo "cli" "v1.0" "main").2 = Throw (ValidationError msg).
Proof.
  refine (proj2 (proj2 (spacefree_target_must_be_tag demo repo "cli" "v1.0" "main"
                          _ eq_refl _ _ _)) _).
  - discriminate.
  - discriminate.
  - reflexivity.
  - by_evaluation.
Defined.

(** ** Listing *)

Lemma printVersions_returns (E : env) (versions : list string)
    (currentVersion : option string) (cols : option nat) (indent : nat) :
  ∃ out, printVersions E versions currentVersion cols indent = (out, Return tt).
Proof.
  unfold printVersions. repeat case_decide; by eexists.
Qed.

Lemma listVersions_Return (E : env) (self : GithubProvider) (n : string)
    (currentVersion : option string) (vs : GithubVersions) :
  getVersions E n = Return vs →
  ∃ out, listVersions E self n currentVersion = (out, Return tt).
Proof.
  intros Hvs. unfold listVersions. rewrite Hvs. simpl.
  destruct (printVersions_returns E (tags vs) currentVersion None
              (if listBranches self && bool_decide (0 < length (branches vs))
               then 2 else 0)) as [out1 ->].
  destruct (printVersions_returns E (branches vs) currentVersion (Some 5)
              (if listBranches self && bool_decide (0 < length (branches vs))
               then 2 else 0)) as [out2 Hout2].
  destruct (listBranches self && bool_decide (0 < length (branches vs)));
    simpl; [rewrite Hout2 |]; by eexists.
Qed.

(** X14. [listVersions] fails exactly when [getVersions] fails, with the
    same exception, and then it has written nothing: no header is printed
    before the versions are known. *)
Theorem listVersions_fails_iff (E : env) (self : GithubProvider) (n : string)
    (currentVersion : option string) :
  (∀ e, (listVersions E self n currentVersion).2 = Throw e ↔
        getVersions E n = Throw e) ∧
  (∀ e, getVersions E n = Throw e →
        listVersions E self n currentVersion = ([], Throw e)).
Proof.
  destruct (getVersions E n) as [vs | e'] eqn:Hvs.
  - destruct (listVersions_Return E self n currentVersion vs Hvs) as [out ->].
    split; [| done]. by intros e.
  - assert (listVersions E self n currentVersion = ([], Throw e')) as ->
      by (unfold listVersions; by rewrite Hvs).
    split; [| by intros e [= ->]]. intros e. simpl. naive_solver.
Qed.

(** X15. When the provider was built with [branches: false], or the
    repository has no branch, [listVersions] writes what [printVersions]
    writes for the tags with the default eight columns and no indent: no
    header, no branch section, no closing blank line. *)
Theorem listVersions_without_branches (E : env) (self : GithubProvider)
    (n : string) (currentVersion : option string) (vs : GithubVersions) :
  getVersions E n = Return vs →
  listBranches self = false ∨ branches vs = [] →
  listVersions E self n currentVersion =
    printVersions E (tags vs) currentVersion None 0.
Proof.
  intros Hvs Hhide. unfold listVersions. rewrite Hvs. simpl.
  assert (listBranches self && bool_decide (0 < length (branches vs)) = false)
    as ->.
  { destruct Hhide as [-> | ->]; [done |]. apply andb_false_r. }
  simpl.
  destruct (printVersions_returns E (tags vs) currentVersion None 0) as [out ->].
  simpl. by rewrite app_nil_r.
Qed.

Lemma listVersions_without_branches_witness :
  listVersions (plain (ok [tag "v1.0"; tag "v1.1"]) (ok [])) repo "cli" (Some "v1.0")
    = ([ConsoleLog ("  v1.1" +:+ nl +:+ "* v1.0")], Return tt).
Proof.
  refine (eq_trans
            (listVersions_without_branches
               (plain (ok [tag "v1.0"; tag "v1.1"]) (ok [])) repo "cli"
               (Some "v1.0") _ eq_refl _) _).
  - by right.
  - reflexivity.
Defined.

(** X16. Up to 25 versions, 25 included, [printVersions] never builds a
    table and ignores [maxCols]: an empty list writes nothing, any other
    writes one text with a line for each version, the indent in front of
    its mark. *)
Theorem printVersions_short_list (E : env) (versions : list string)
    (currentVersion : option string) (cols : option nat) (indent : nat) :
  length versions ≤ maxListSize →
  printVersions E versions currentVersion cols indent =
    if decide (versions = []) then ([], Return tt)
    else ([ConsoleLog
             (join nl ((λ version,
                          repeat_str " " indent +:+ mark E currentVersion version)
                       <$> versions))],
          Return tt).
Proof.
  intros Hshort. unfold printVersions.
  destruct versions as [|v versions]; [done |].
  rewrite decide_False by (simpl; lia).
  rewrite (decide_False (P := v :: versions = [])) by done.
  rewrite length_fmap, decide_False by lia.
  by rewrite <- list_fmap_compose.
Qed.

Lemma printVersions_short_list_witness :
  printVersions demo (take 25 thirty) (Some "v3") (Some 5) 2 =
  printVersions demo (take 25 thirty) (Some "v3") (Some 8) 2.
Proof.
  rewrite (printVersions_short_list demo (take 25 thirty) (Some "v3") (Some 5) 2)
    by (vm_compute; lia).
  rewrite (printVersions_short_list demo (take 25 thirty) (Some "v3") (Some 8) 2)
    by (vm_compute; lia).
  reflexivity.
Defined.

(** X18. A provider built without the [branches] option, or with it set,
    lists the branches of a repository that has some: a "Tags:" header,
    the tags, a "Branches:" header, the branches in at most five columns,
    and a blank line, everything indented by two. *)
Theorem listVersions_with_branches (E : env) (options : Options.t) (n : string)
    (currentVersion : option string) (vs : GithubVersions) :
  Options.branches options ≠ Some false →
  getVersions E n = Return vs →
  branches vs ≠ [] →
  listVersions E (GithubProvider_new options) n currentVersion =
    ([ConsoleLog (nl +:+ "  " +:+ bold E (brightBlue E ("Tags:" +:+ nl)))] ++
     (printVersions E (tags vs) currentVersion None 2).1 ++
     [ConsoleLog (nl +:+ "  " +:+ bold E (brightBlue E ("Branches:" +:+ nl)))] ++
     (printVersions E (branches vs) currentVersion (Some 5) 2).1 ++
     [ConsoleLog ""],
     Return tt).
Proof.
  intros Hopt Hvs Hbs. unfold listVersions. rewrite Hvs. simpl.
  assert (default true (Options.branches options)
          && bool_decide (0 < length (branches vs)) = true) as ->.
  { destruct (Options.branches options) as [[]|]; try done; simpl;
      apply bool_decide_eq_true; destruct (branches vs); simpl; (done || lia). }
  destruct (printVersions_returns E (tags vs) currentVersion None 2) as [out1 ->].
  destruct (printVersions_returns E (branches vs) currentVersion (Some 5) 2)
    as [out2 ->].
  done.
Qed.

Lemma listVersions_with_branches_witness :
  listVersions demo (GithubProvider_new (Options.mk "owner/repo" None None)) "cli"
    (Some "v1.0") =
    ([ConsoleLog (nl +:+ "  Tags:" +:+ nl);
      ConsoleLog ("    v2.0" +:+ nl +:+ "    v1.1" +:+ nl +:+ "  * v1.0");
      ConsoleLog (nl +:+ "  Branches:" +:+ nl);
      ConsoleLog ("    main (Protected)" +:+ nl +:+ "    dev ");
      ConsoleLog ""],
     Return tt).
Proof.
  refine (eq_trans
            (listVersions_with_branches demo (Options.mk "owner/repo" None None)
               "cli" (Some "v1.0") _ _ eq_refl _) _).
  - discriminate.
  - discriminate.
  - reflexivity.
Defined.

(** X19. The [--list-versions] option ends the process with exit code 0
    exactly when [getVersions] returned; when it failed, nothing is printed,
    no exit is reached and the exception leaves the callback. No other exit
    code occurs. *)
Theorem list_versions_action_ending (E : env) (self : GithubProvider) (n : string)
    (currentVersion : option string) :
  ((list_versions_action E self n currentVersion).2 = Exited 0 ↔
     ∃ vs, getVersions E n = Return vs) ∧
  (∀ e, getVersions E n = Throw e →
        list_versions_action E self n currentVersion = ([], Escaped e)) ∧
  (∀ code, (list_versions_action E self n currentVersion).2 = Exited code →
           code = 0%Z).
Proof.
  unfold list_versions_action.
  destruct (getVersions E n) as [vs | e] eqn:Hvs.
  - destruct (listVersions_Return E self n currentVersion vs Hvs) as [out ->].
    simpl. split_and!; [split; [by eauto | done] | done | by intros code [= <-]].
  - assert (listVersions E self n currentVersion = ([], Throw e)) as ->
      by (unfold listVersions; by rewrite Hvs).
    simpl. split_and!; [| by intros e' [= ->] | done].
    split; [done | by intros [vs ?]].
Qed.

(** ** Reading the table back *)

Lemma lookup_entries_seq (entries : list string) (m : nat) :
  length entries ≤ m →
  (λ k, entries !! k) <$> seq 0 m =
    (Some <$> entries) ++ replicate (m - length entries) None.
Proof.
  intros Hm. apply list_eq. intros i.
  rewrite list_lookup_fmap.
  destruct (decide (i < length entries)) as [Hi | Hi].
  - rewrite lookup_seq_lt by lia. simpl.
    rewrite lookup_app_l by (by rewrite length_fmap).
    rewrite list_lookup_fmap.
    by destruct (lookup_lt_is_Some_2 entries i Hi) as [x ->].
  - rewrite lookup_app_r by (rewrite length_fmap; lia).
    rewrite length_fmap.
    destruct (decide (i < m)) as [Him | Him].
    + rewrite lookup_seq_lt by lia. simpl.
      rewrite lookup_replicate_2 by lia.
      by rewrite lookup_ge_None_2 by lia.
    + rewrite lookup_seq_ge by lia. simpl. symmetry.
      apply lookup_replicate_None. lia.
Qed.

Lemma omap_Some_app_None {A} (l : list A) (m : nat) :
  omap id ((Some <$> l) ++ replicate m None) = l.
Proof.
  rewrite omap_app.
  assert (omap id (replicate m (@None A)) = []) as ->
    by (induction m as [|m IH]; [done | by simpl]).
  rewrite app_nil_r. induction l as [|x l IH]; [done |].
  csimpl. f_equal. exact IH.
Qed.

(** X17. For more than 25 versions and a positive column count, reading
    the logged table column by column, each from the top, gives back the
    marked versions in their order, followed by as many [undefined] cells
    as the grid has room left; dropping those recovers the list. The first
    column is full: every row starts with an entry. *)
Theorem printVersions_table_reads_back (E : env) (versions : list string)
    (currentVersion : option string) (cols indent : nat) :
  maxListSize < length versions →
  0 < cols →
  let entries := mark E currentVersion <$> versions in
  let rowSize := ceil_div (length versions) cols in
  let colSize := length versions `min` cols in
  ∃ table,
    printVersions E versions currentVersion (Some cols) indent
      = ([ConsoleLogTable indent table], Return tt) ∧
    read_column_major table rowSize colSize =
      (Some <$> entries) ++ replicate (rowSize * colSize - length versions) None ∧
    omap id (read_column_major table rowSize colSize) = entries ∧
    (∀ r, r < rowSize → is_Some (cell table r 0)).
Proof.
  intros Hmany Hcols entries rowSize colSize. unfold maxListSize in Hmany.
  assert (length entries = length versions) as Hlen by apply length_fmap.
  destruct (ceil_div_bounds (length versions) cols Hcols) as [Hceil Hleast].
  fold rowSize in Hceil, Hleast. specialize (Hleast ltac:(lia)).
  assert (colSize = length versions `min` cols) as Hmin by done.
  assert (0 < rowSize) as Hrows by nia.
  assert (length versions ≤ rowSize * colSize) as Hroom by nia.
  assert (rowSize ≤ length versions) as Hfull by nia.
  exists (column_major_grid entries rowSize colSize).
  assert (read_column_major (column_major_grid entries rowSize colSize)
            rowSize colSize =
          (Some <$> entries) ++
            replicate (rowSize * colSize - length versions) None) as Hread.
  { rewrite <- Hlen. rewrite <- lookup_entries_seq by lia.
    unfold read_column_major.
    apply Forall_fmap_ext_1, Forall_forall. intros k [_ Hk]%elem_of_seq.
    pose proof (Nat.div_mod_eq k rowSize) as Hdm.
    pose proof (Nat.mod_upper_bound k rowSize ltac:(lia)) as Hmod.
    rewrite cell_grid; [f_equal; lia | done |].
    apply Nat.Div0.div_lt_upper_bound. lia. }
  split_and!.
  - unfold printVersions. rewrite decide_False by lia.
    fold entries. rewrite Hlen. unfold maxListSize.
    rewrite decide_True by done. simpl. fold rowSize colSize. unfold console.
    by rewrite fill_table_grid by lia.
  - done.
  - rewrite Hread. apply omap_Some_app_None.
  - intros r Hr. rewrite cell_grid by lia. simpl.
    apply lookup_lt_is_Some_2. lia.
Qed.

Lemma printVersions_table_reads_back_witness :
  ∃ table,
    printVersions demo thirty None (Some 8) 0
      = ([ConsoleLogTable 0 table], Return tt) ∧
    omap id (read_column_major table 4 8) = mark demo None <$> thirty.
Proof.
  destruct (printVersions_table_reads_back demo thirty None 8 0)
    as (table & Hlog & _ & Hback & _).
  - vm_compute. lia.
  - lia.
  - exists table. split; [exact Hlog | exact Hback].
Defined.
